(** * frameserver: the single-buffer frame pump and its HTTP readers

    A shallow embedding of [main.go]: the reader/writer lock, the
    [getJPEG] handler, the [framePump] loop and the shutdown path of
    [main], as a labelled transition system over an explicit state.  The
    V4L2 driver and the HTTP server are the environment: every result of
    a device request is carried by the label of the step that issues it. *)

From Stdlib Require Import ZArith List Lia Bool Strings.Byte.
From stdpp Require Import base option gmap strings list.
Import ListNotations.
Local Open Scope Z_scope.

(** ** Machine integers and bytes *)

Abbreviation byte := Byte.byte.

#[global] Instance byte_eq_decision : EqDecision byte := Byte.byte_eq_dec.

(** [uint32] fields are integers reduced modulo 2^32. *)
Definition wrap32 (z : Z) : Z := z mod 2 ^ 32.

(** [syscall.Errno]: zero means success. *)
Definition Errno : Type := Z.

(** ** V4L2 constants and records (main.go, lines 26-99) *)

Module V4L2.

Definition V4L2_BUF_TYPE_VIDEO_CAPTURE : Z := 1.
Definition V4L2_PIX_FMT_JPEG : Z := 0x4745504a.
Definition V4L2_FIELD_NONE : Z := 1.
Definition V4L2_MEMORY_MMAP : Z := 1.
Definition VIDIOC_S_FMT : Z := 0xc0cc5605.
Definition VIDIOC_REQBUFS : Z := 0xc0145608.
Definition VIDIOC_QUERYBUF : Z := 0xc0445609.
Definition VIDIOC_STREAMON : Z := 0x40045612.
Definition VIDIOC_STREAMOFF : Z := 0x40045613.
Definition VIDIOC_QBUF : Z := 0xc044560f.
Definition VIDIOC_DQBUF : Z := 0xc0445611.
Definition VIDIOC_QUERYCAP : Z := 0x80685600.

Record v4l2_timecode := {
  tc_typ : Z; tc_flags : Z; frames : Z; seconds : Z; minutes : Z;
  hours : Z; userbits : list Z }.

Record timeval := { tv_sec : Z; tv_usec : Z }.

Record v4l2_buffer := {
  index : Z;
  typ : Z;
  bytesused : Z;
  flags : Z;
  field : Z;
  timestamp : timeval;
  timecode : v4l2_timecode;
  sequence : Z;
  memory : Z;
  offset : Z;
  length : Z;
  reserved2 : Z;
  reserved : Z }.

Definition zero_timecode : v4l2_timecode :=
  {| tc_typ := 0; tc_flags := 0; frames := 0; seconds := 0; minutes := 0;
     hours := 0; userbits := [0; 0; 0; 0] |}.

(** The composite literal of lines 146-150 (and 226-230, 255-259):
    the three named fields, every other field zero. *)
Definition capture_buffer : v4l2_buffer :=
  {| index := 0;
     typ := V4L2_BUF_TYPE_VIDEO_CAPTURE;
     bytesused := 0;
     flags := 0;
     field := 0;
     timestamp := {| tv_sec := 0; tv_usec := 0 |};
     timecode := zero_timecode;
     sequence := 0;
     memory := V4L2_MEMORY_MMAP;
     offset := 0;
     length := 0;
     reserved2 := 0;
     reserved := 0 |}.

(** What a successful DQBUF leaves in the caller's record: the driver
    fills in the 32-bit [bytesused] field. *)
Definition with_bytesused (q : v4l2_buffer) (n : Z) : v4l2_buffer :=
  {| index := index q; typ := typ q; bytesused := wrap32 n;
     flags := flags q; field := field q; timestamp := timestamp q;
     timecode := timecode q; sequence := sequence q; memory := memory q;
     offset := offset q; length := length q; reserved2 := reserved2 q;
     reserved := reserved q |}.

End V4L2.

(** ** sync.RWMutex (line 110)

    One exclusive holder or any number of shared holders.  An operation
    that would block, or that Go treats as a fatal misuse (unlocking a
    mutex that is not locked), has no result. *)

Module RWMutex.

Record t := { writer : bool; readers : nat }.

Definition zero : t := {| writer := false; readers := 0 |}.

Definition Lock (m : t) : option t :=
  if writer m then None
  else match readers m with
       | O => Some {| writer := true; readers := 0 |}
       | S _ => None
       end.

Definition Unlock (m : t) : option t :=
  if writer m then Some {| writer := false; readers := readers m |}
  else None.

Definition RLock (m : t) : option t :=
  if writer m then None
  else Some {| writer := false; readers := S (readers m) |}.

Definition RUnlock (m : t) : option t :=
  match readers m with
  | O => None
  | S k => Some {| writer := writer m; readers := k |}
  end.

End RWMutex.

(** ** The HTTP response a handler builds *)

Record Response := {
  header : gmap string string;
  body : list byte }.

(** [w.Header().Set(k, v)] *)
Definition Header_Set (k v : string) (h : gmap string string)
  : gmap string string := <[k := v]> h.

(** The slice expression [data[:n]] on a slice whose capacity equals its
    length (what [unix.Mmap] returns): [None] is the run-time panic
    "slice bounds out of range". *)
Definition slice_to (data : list byte) (n : Z) : option (list byte) :=
  if (0 <=? n) && (n <=? Z.of_nat (List.length data))
  then Some (firstn (Z.to_nat n) data)
  else None.

(** What one call of the handler leaves behind: a response sent to the
    client, or a panic that the HTTP server recovers by dropping the
    connection. *)
Inductive Served :=
| Responded (r : Response)
| Panicked.

(** ** getJPEG (lines 115-124), run without interruption

    [RLock]; [defer RUnlock]; set the header; slice; write.  The lock
    is taken and given back, so the result is the mutex unchanged
    together with what was served; [None] when [RLock] would block. *)
Definition getJPEG (data : list byte) (mutex : RWMutex.t) (jpegLen : Z)
  : option (RWMutex.t * Served) :=
  m1 ← RWMutex.RLock mutex;
  let h := Header_Set "Cache-Control" "no-store" ∅ in
  match slice_to data jpegLen with
  | Some bs =>
      m2 ← RWMutex.RUnlock m1;
      Some (m2, Responded {| header := h; body := bs |})
  | None =>
      m2 ← RWMutex.RUnlock m1;
      Some (m2, Panicked)
  end.

(** ** The capture device, as the program sees it

    The program requests one buffer slot, index 0 (lines 210-214), and
    maps it shared with the driver (lines 242-248); the program itself
    never writes into the mapping.  [VIDIOC_QBUF] hands the slot to the
    driver, which may then write into the mapped memory at any time;
    when a frame is complete the driver parks the slot with the byte
    count it will report, and [select] sees the descriptor readable;
    [VIDIOC_DQBUF] gives the slot back to the program. *)
Inductive Slot :=
| Dequeued            (* owned by the program *)
| Queued              (* owned by the driver, being filled *)
| Done (n : Z).       (* filled, waiting to be dequeued *)

(** The driver storing [bs] at offset [off] of the mapped buffer. *)
Definition overwrite (off : nat) (bs data : list byte) : list byte :=
  firstn off data ++ bs ++ skipn (off + List.length bs) data.

(** ** framePump (lines 128-179) as a control-flow graph

    One program point per statement that touches shared state or the
    device; [qbuf] is the local record of lines 146-150. *)
Inductive PumpPC :=
| PcSelect                                  (* line 137 *)
| PcLock                                    (* line 143 *)
| PcDqbuf                                   (* line 151 *)
| PcUnlockErr (errno : Errno)               (* line 158 *)
| PcStore (qbuf : V4L2.v4l2_buffer)         (* line 163 *)
| PcUnlock (qbuf : V4L2.v4l2_buffer)        (* line 166 *)
| PcQbuf (qbuf : V4L2.v4l2_buffer)          (* line 169 *)
| PcReturned (err : Errno).                 (* lines 139, 159, 176 *)

(** The statements between [mutex.Lock()] and [mutex.Unlock()]. *)
Definition in_critical_section (pc : PumpPC) : bool :=
  match pc with
  | PcDqbuf | PcUnlockErr _ | PcStore _ | PcUnlock _ => true
  | _ => false
  end.

(** ** One request inside the handler of getJPEG (lines 117-122) *)
Inductive Handler :=
| HLocked                                        (* after line 118 *)
| HHeader (h : gmap string string)               (* after line 121 *)
| HSliced (h : gmap string string) (n : Z)       (* data[:jpegLen] evaluated *)
| HWritten (r : Response)                        (* w.Write returned *)
| HPanic.                                        (* slice out of range *)

(** ** The state shared by the goroutines *)
Record State := {
  mutex : RWMutex.t;                 (* line 110 *)
  jpegLen : Z;                       (* line 111 *)
  data : list byte;                  (* the mapping of lines 242-248 *)
  slot : Slot;
  pump : PumpPC;                     (* the goroutine of line 282 *)
  handlers : gmap nat Handler;       (* requests being served *)
  served : list (nat * Served);      (* finished requests, newest first *)
  updates : list (list byte * Z);    (* history: buffer and length at each
                                        store of line 163, newest first *)
  exited : option Z }.               (* os.Exit status, once called *)

(** The state [main] leaves when it reaches line 299: the slot has been
    enqueued (line 260), the stream started, the pump launched, no frame
    length stored yet ([jpegLen] is a zero-initialised global). *)
Definition init (data0 : list byte) : State :=
  {| mutex := RWMutex.zero; jpegLen := 0; data := data0; slot := Queued;
     pump := PcSelect; handlers := ∅; served := []; updates := [];
     exited := None |}.

Definition set_mutex (m : RWMutex.t) (s : State) : State :=
  {| mutex := m; jpegLen := jpegLen s; data := data s; slot := slot s;
     pump := pump s; handlers := handlers s; served := served s;
     updates := updates s; exited := exited s |}.

Definition set_pump (p : PumpPC) (s : State) : State :=
  {| mutex := mutex s; jpegLen := jpegLen s; data := data s; slot := slot s;
     pump := p; handlers := handlers s; served := served s;
     updates := updates s; exited := exited s |}.

Definition set_slot (d : Slot) (s : State) : State :=
  {| mutex := mutex s; jpegLen := jpegLen s; data := data s; slot := d;
     pump := pump s; handlers := handlers s; served := served s;
     updates := updates s; exited := exited s |}.

Definition set_data (bs : list byte) (s : State) : State :=
  {| mutex := mutex s; jpegLen := jpegLen s; data := bs; slot := slot s;
     pump := pump s; handlers := handlers s; served := served s;
     updates := updates s; exited := exited s |}.

Definition set_handlers (hs : gmap nat Handler) (s : State) : State :=
  {| mutex := mutex s; jpegLen := jpegLen s; data := data s; slot := slot s;
     pump := pump s; handlers := hs; served := served s;
     updates := updates s; exited := exited s |}.

(** [jpegLen = qbuf.bytesused], with the history entry. *)
Definition store_len (n : Z) (s : State) : State :=
  {| mutex := mutex s; jpegLen := n; data := data s; slot := slot s;
     pump := pump s; handlers := handlers s; served := served s;
     updates := (data s, n) :: updates s; exited := exited s |}.

Definition finish (i : nat) (r : Served) (s : State) : State :=
  {| mutex := mutex s; jpegLen := jpegLen s; data := data s; slot := slot s;
     pump := pump s; handlers := delete i (handlers s);
     served := (i, r) :: served s; updates := updates s;
     exited := exited s |}.

Definition exit_with (code : Z) (s : State) : State :=
  {| mutex := mutex s; jpegLen := jpegLen s; data := data s; slot := slot s;
     pump := pump s; handlers := handlers s; served := served s;
     updates := updates s; exited := Some code |}.

(** ** Steps

    A label names the goroutine (or the driver) that moves and carries
    whatever the environment decides at that step: the errno of a
    system call, the bytes the driver writes. *)
Inductive Event :=
| DevWrite (off : nat) (bs : list byte)
| DevDone (n : Z)
| PumpSelect (errno : Errno)
| PumpLock
| PumpDqbuf (errno : Errno)
| PumpStore
| PumpUnlock
| PumpQbuf (errno : Errno)
| ReqRLock (i : nat)
| ReqSetHeader (i : nat)
| ReqSlice (i : nat)
| ReqWrite (i : nat)
| ReqRUnlock (i : nat)
| ListenFail.

Definition pump_step (e : Event) (s : State) : option State :=
  match e, pump s with
  | PumpSelect errno, PcSelect =>
      if errno =? 0 then
        match slot s with
        | Done _ => Some (set_pump PcLock s)
        | _ => None                      (* nothing ready: select blocks *)
        end
      else Some (set_pump (PcReturned errno) s)
  | PumpLock, PcLock =>
      m ← RWMutex.Lock (mutex s);
      Some (set_pump PcDqbuf (set_mutex m s))
  | PumpDqbuf errno, PcDqbuf =>
      if errno =? 0 then
        match slot s with
        | Done n =>
            Some (set_pump (PcStore (V4L2.with_bytesused V4L2.capture_buffer n))
                    (set_slot Dequeued s))
        | _ => None                      (* the driver has nothing to give *)
        end
      else Some (set_pump (PcUnlockErr errno) s)
  | PumpStore, PcStore qbuf =>
      Some (set_pump (PcUnlock qbuf) (store_len (V4L2.bytesused qbuf) s))
  | PumpUnlock, PcUnlock qbuf =>
      m ← RWMutex.Unlock (mutex s);
      Some (set_pump (PcQbuf qbuf) (set_mutex m s))
  | PumpUnlock, PcUnlockErr errno =>
      m ← RWMutex.Unlock (mutex s);
      Some (set_pump (PcReturned errno) (set_mutex m s))
  | PumpQbuf errno, PcQbuf qbuf =>
      if errno =? 0 then Some (set_pump PcSelect (set_slot Queued s))
      else Some (set_pump (PcReturned errno) s)
  | _, _ => None
  end.

Definition device_step (e : Event) (s : State) : option State :=
  match e, slot s with
  | DevWrite off bs, Queued =>
      if (off + List.length bs <=? List.length (data s))%nat
      then Some (set_data (overwrite off bs (data s)) s)
      else None
  | DevDone n, Queued => Some (set_slot (Done n) s)
  | _, _ => None
  end.

Definition handler_step (e : Event) (s : State) : option State :=
  match e with
  | ReqRLock i =>
      match handlers s !! i with
      | None =>
          m ← RWMutex.RLock (mutex s);
          Some (set_handlers (<[i := HLocked]> (handlers s)) (set_mutex m s))
      | Some _ => None
      end
  | ReqSetHeader i =>
      match handlers s !! i with
      | Some HLocked =>
          Some (set_handlers
                  (<[i := HHeader (Header_Set "Cache-Control" "no-store" ∅)]>
                     (handlers s)) s)
      | _ => None
      end
  | ReqSlice i =>
      match handlers s !! i with
      | Some (HHeader h) =>
          match slice_to (data s) (jpegLen s) with
          | Some _ =>
              Some (set_handlers (<[i := HSliced h (jpegLen s)]> (handlers s)) s)
          | None => Some (set_handlers (<[i := HPanic]> (handlers s)) s)
          end
      | _ => None
      end
  | ReqWrite i =>
      match handlers s !! i with
      | Some (HSliced h n) =>
          Some (set_handlers
                  (<[i := HWritten {| header := h;
                                      body := firstn (Z.to_nat n) (data s) |}]>
                     (handlers s)) s)
      | _ => None
      end
  | ReqRUnlock i =>
      match handlers s !! i with
      | Some (HWritten r) =>
          m ← RWMutex.RUnlock (mutex s);
          Some (finish i (Responded r) (set_mutex m s))
      | Some HPanic =>
          m ← RWMutex.RUnlock (mutex s);
          Some (finish i Panicked (set_mutex m s))
      | _ => None
      end
  | _ => None
  end.

(** Line 299: [log.Fatal(http.ListenAndServe(...))] ends the process
    with status 1 when the server returns. *)
Definition step (e : Event) (s : State) : option State :=
  match exited s with
  | Some _ => None
  | None =>
      match e with
      | DevWrite _ _ | DevDone _ => device_step e s
      | PumpSelect _ | PumpLock | PumpDqbuf _ | PumpStore | PumpUnlock
      | PumpQbuf _ => pump_step e s
      | ListenFail => Some (exit_with 1 s)
      | _ => handler_step e s
      end
  end.

Fixpoint run (tr : list Event) (s : State) : option State :=
  match tr with
  | [] => Some s
  | e :: tr' => s' ← step e s; run tr' s'
  end.

Definition reachable (data0 : list byte) (s : State) : Prop :=
  ∃ tr, run tr (init data0) = Some s.

(** The events of one uninterrupted pump iteration that succeeds, and
    of one uninterrupted request. *)
Definition pump_iteration : list Event :=
  [PumpSelect 0; PumpLock; PumpDqbuf 0; PumpStore; PumpUnlock; PumpQbuf 0].

Definition request (i : nat) : list Event :=
  [ReqRLock i; ReqSetHeader i; ReqSlice i; ReqWrite i; ReqRUnlock i].

(** The events of a request as the handler really runs it: after a
    panic the write is skipped and the deferred [RUnlock] runs. *)
Definition events_of (i : nat) (r : Served) : list Event :=
  match r with
  | Responded _ => request i
  | Panicked => [ReqRLock i; ReqSetHeader i; ReqSlice i; ReqRUnlock i]
  end.

(** ** Scenarios

    A four-byte mapping and two frames the driver delivers. *)
Definition blank : list byte := [x00; x00; x00; x00].
Definition frame_a : list byte := [xa1; xa2; xa3; xa4].
Definition frame_b : list byte := [xb1; xb2; xb3].

(** The driver fills the slot with [frame_a]; the pump publishes it and
    re-enqueues the slot; a request takes the read lock and evaluates
    the slice; the driver, owning the slot again, starts the next frame;
    the request writes. *)
Definition torn_trace : list Event :=
  [DevWrite 0 frame_a; DevDone 4] ++ pump_iteration ++
  [ReqRLock 0; ReqSetHeader 0; ReqSlice 0;
   DevWrite 0 frame_b;
   ReqWrite 0; ReqRUnlock 0].

(** [frame_a] is published; the driver delivers [frame_b]; the dequeue
    of the second iteration fails with EIO; a request follows. *)
Definition failed_dequeue_trace : list Event :=
  [DevWrite 0 frame_a; DevDone 4] ++ pump_iteration ++
  [DevWrite 0 frame_b; DevDone 3;
   PumpSelect 0; PumpLock; PumpDqbuf 5; PumpUnlock] ++
  request 0.

(** The pump about to re-enqueue after publishing three bytes. *)
Definition before_enqueue : list Event :=
  [DevDone 3; PumpSelect 0; PumpLock; PumpDqbuf 0; PumpStore; PumpUnlock].

Definition at_enqueue : State :=
  set_pump (PcQbuf (V4L2.with_bytesused V4L2.capture_buffer 3))
    (store_len 3 (set_slot Dequeued (init blank))).

(** The three ways the pump can meet a device error: in the wait, in
    the dequeue, in the enqueue. *)
Definition select_fails : list Event := [PumpSelect 4].
Definition dequeue_fails : list Event :=
  [DevDone 3; PumpSelect 0; PumpLock; PumpDqbuf 5; PumpUnlock].
Definition enqueue_fails : list Event := before_enqueue ++ [PumpQbuf 5].

(** ** Vocabulary for the properties *)

Definition no_store : gmap string string :=
  Header_Set "Cache-Control" "no-store" ∅.

(** The length stored by the most recent update; zero before any. *)
Definition latest_len (us : list (list byte * Z)) : Z :=
  match us with
  | [] => 0
  | (_, n) :: _ => n
  end.

(** The frame an update published: the first [n] bytes of the buffer as
    it stood when the length [n] was stored. *)
Definition frame_of (u : list byte * Z) : list byte :=
  firstn (Z.to_nat (snd u)) (fst u).

(** A response is untorn when its body is the frame of one update, or
    the empty body served before any update. *)
Definition untornb (us : list (list byte * Z)) (r : Response) : bool :=
  bool_decide (body r = []) ||
  existsb (λ u, bool_decide (body r = frame_of u)) us.

(** The pump has returned [err] with the slot in the program's hands:
    buffer, length and history are then [d], [n] and [us] for good. *)
Definition frozen (d : list byte) (n : Z) (us : list (list byte * Z))
    (err : Errno) (s : State) : Prop :=
  pump s = PcReturned err ∧ slot s = Dequeued ∧
  data s = d ∧ jpegLen s = n ∧ updates s = us.

(** What the invariant says of a request in flight. *)
Definition handler_ok (s : State) (h : Handler) : Prop :=
  match h with
  | HLocked | HPanic => True
  | HHeader hd => hd = no_store
  | HSliced hd n =>
      hd = no_store ∧ n = jpegLen s ∧ 0 ≤ n ≤ Z.of_nat (List.length (data s))
  | HWritten r => header r = no_store
  end.

Record Inv (data0 : list byte) (s : State) : Prop := {
  inv_cs : RWMutex.writer (mutex s) = in_critical_section (pump s);
  inv_readers : RWMutex.readers (mutex s) = size (handlers s);
  inv_excl : RWMutex.writer (mutex s) = true →
             RWMutex.readers (mutex s) = 0%nat;
  inv_err : ∀ e, pump s = PcReturned e ∨ pump s = PcUnlockErr e → e ≠ 0;
  inv_len : List.length (data s) = List.length data0;
  inv_jpegLen : jpegLen s = latest_len (updates s);
  inv_range : 0 ≤ jpegLen s < 2 ^ 32;
  inv_qbuf : ∀ q, pump s = PcStore q → 0 ≤ V4L2.bytesused q < 2 ^ 32;
  inv_slot : ∀ q, pump s = PcStore q ∨ pump s = PcUnlock q ∨ pump s = PcQbuf q →
             slot s = Dequeued;
  inv_latest : ∀ q, pump s = PcUnlock q ∨ pump s = PcQbuf q →
               ∃ us, updates s = (data s, jpegLen s) :: us;
  inv_handlers : ∀ i h, handlers s !! i = Some h → handler_ok s h;
  inv_served : ∀ i r, (i, Responded r) ∈ served s → header r = no_store }.

(** ** The shutdown path of main (lines 189, 252, 284-295)

    A computation of the main goroutine is the list of effects it
    performs and its value, or no value once [os.Exit] has been called
    (deferred calls do not run after it). *)
Module Shutdown.

Inductive Effect :=
| Ioctl (req : Z)
| LogPrint (msg : string) (errno : Errno)
| Munmap
| Close
| OsExit (code : Z).

Definition Proc (A : Type) : Type := list Effect * option A.

Definition ret {A} (a : A) : Proc A := ([], Some a).

Definition bind {A B} (c : Proc A) (k : A → Proc B) : Proc B :=
  match c with
  | (es, Some a) => let (es', b) := k a in (es ++ es', b)
  | (es, None) => (es, None)
  end.

Notation "c ;;; k" := (bind c (λ _, k))
  (at level 60, right associativity).

Definition emit (e : Effect) : Proc unit := ([e], Some tt).

(** [log.Fatal]: print, then [os.Exit(1)]. *)
Definition log_Fatal (msg : string) (errno : Errno) : Proc unit :=
  ([LogPrint msg errno; OsExit 1], None).

(** The deferred closure of lines 285-295; [errno] is what the
    STREAMOFF request returns. *)
Definition stop_stream (errno : Errno) : Proc unit :=
  emit (Ioctl V4L2.VIDIOC_STREAMOFF) ;;;
  if errno =? 0 then ret tt else log_Fatal "Start stream: " errno.

(** The deferred calls of main, last registered first. *)
Definition run_deferred (errno : Errno) : Proc unit :=
  stop_stream errno ;;; emit Munmap ;;; emit Close.

End Shutdown.

(** ** uint8_to_string (lines 101-107)

    The loop appends every element to a byte slice that starts empty;
    the slice is then converted to a string. *)
Definition uint8_to_string (bs : list byte) : string :=
  let ba := fold_left (λ ba b, ba ++ [b]) bs [] in
  String.string_of_list_byte ba.

(** ** The descriptor set of framePump (lines 130-133)

    [unix.FdSet] is declared by the imported package, not here: its
    field [Bits] is an array of integers of [W] bits each, 1024 bits in
    all ([16]int64, or [32]int32 on 32-bit targets).  [W] and the number
    of elements are parameters; an element is held as its bit pattern,
    a number below [2 ^ W]. *)
Module FdSet.

(** [unix.FdSet{}] *)
Definition zero (n : nat) : list Z := repeat 0 n.

(** Line 133: [fds.Bits[fd>>8] |= 1 << (uint(fd) & 63)].  The index is
    checked against the array; the constant 1 has the element type, so
    a shift by [W] or more leaves zero. *)
Definition mark (W : Z) (fd : Z) (bits : list Z) : option (list Z) :=
  let idx := Z.shiftr fd 8 in
  if (0 <=? idx) && (idx <? Z.of_nat (List.length bits)) then
    let i := Z.to_nat idx in
    Some (<[i := Z.lor (nth i bits 0)
                       (Z.shiftl 1 (Z.land fd 63) mod 2 ^ W)]> bits)
  else None.

(** How [select] reads the set: descriptor [d] is bit [d mod W] of
    element [d / W]. *)
Definition is_set (W : Z) (d : Z) (bits : list Z) : bool :=
  Z.testbit (nth (Z.to_nat (d / W)) bits 0) (d mod W).

End FdSet.

(** ** main (lines 181-300)

    The main goroutine as the sequence of calls it makes on the
    operating system and the HTTP package.  What those calls return is
    the environment's choice, gathered in [Env]; the two flags are the
    arguments [path] and [port]. *)
Module Main.

Record Env := {
  open_err : Errno;                  (* line 185 *)
  s_fmt : Errno;                     (* line 199 *)
  reqbufs : Errno;                   (* line 215 *)
  querybuf : Errno;                  (* line 231 *)
  buf_offset : Z;                    (* buf.offset after QUERYBUF *)
  buf_length : Z;                    (* buf.length after QUERYBUF *)
  mmap_err : Errno;                  (* line 242 *)
  qbuf : Errno;                      (* line 260 *)
  streamon : Errno;                  (* line 271 *)
  listen_err : Errno;                (* line 299 *)
  streamoff : Errno }.               (* line 286, if it is ever issued *)

Inductive Effect :=
| Open (path : string)
| Ioctl (req : Z)
| Mmap (offset length : Z)
| GoFramePump
| Handle (pattern : string)
| ListenAndServe (port : Z)
| LogFatal (msg : string) (err : Errno)
| OsExit (code : Z)
| Deferred (e : Shutdown.Effect).

(** A goroutine in the middle of a function: what it has done and the
    calls it has deferred, last deferred first. *)
Record Goroutine := {
  effects : list Effect;
  deferred : list (Shutdown.Proc unit) }.

(** A statement either falls through ([true]) or ends the process
    ([false]). *)
Definition Stmt : Type := Goroutine → bool * Goroutine.

Definition emit (e : Effect) : Stmt :=
  λ g, (true, {| effects := effects g ++ [e]; deferred := deferred g |}).

Definition defer (d : Shutdown.Proc unit) : Stmt :=
  λ g, (true, {| effects := effects g; deferred := d :: deferred g |}).

(** [log.Fatal]: print, then [os.Exit(1)]. *)
Definition log_Fatal (msg : string) (err : Errno) : Stmt :=
  λ g, (false, {| effects := effects g ++ [LogFatal msg err; OsExit 1];
                  deferred := deferred g |}).

(** [if errno != 0 { log.Fatal(msg, errno) }] *)
Definition fatal_unless_ok (msg : string) (errno : Errno) : Stmt :=
  if errno =? 0 then λ g, (true, g) else log_Fatal msg errno.

Fixpoint block (ss : list Stmt) : Stmt :=
  match ss with
  | [] => λ g, (true, g)
  | st :: ss' => λ g, let (go, g') := st g in
                      if go then block ss' g' else (false, g')
  end.

Definition main_body (path : string) (port : Z) (env : Env) : Stmt :=
  block
    [ emit (Open path);
      fatal_unless_ok "Open: " (open_err env);
      defer (Shutdown.emit Shutdown.Close);
      emit (Ioctl V4L2.VIDIOC_S_FMT);
      fatal_unless_ok "Set format: " (s_fmt env);
      emit (Ioctl V4L2.VIDIOC_REQBUFS);
      fatal_unless_ok "Request buffer: " (reqbufs env);
      emit (Ioctl V4L2.VIDIOC_QUERYBUF);
      fatal_unless_ok "Query buffer: " (querybuf env);
      emit (Mmap (buf_offset env) (buf_length env));
      fatal_unless_ok "" (mmap_err env);
      defer (Shutdown.emit Shutdown.Munmap);
      emit (Ioctl V4L2.VIDIOC_QBUF);
      fatal_unless_ok "qbuf: " (qbuf env);
      emit (Ioctl V4L2.VIDIOC_STREAMON);
      fatal_unless_ok "Start stream: " (streamon env);
      emit GoFramePump;
      defer (Shutdown.stop_stream (streamoff env));
      emit (Handle "/image.jpg");
      emit (ListenAndServe port);
      log_Fatal "" (listen_err env) ].

(** Running the deferred calls of a function that returns. *)
Fixpoint unwind (ds : list (Shutdown.Proc unit)) : Shutdown.Proc unit :=
  match ds with
  | [] => Shutdown.ret tt
  | d :: ds' => Shutdown.bind d (λ _, unwind ds')
  end.

(** The whole of main: the body, and the deferred calls if the body
    falls off its end. *)
Definition main (path : string) (port : Z) (env : Env) : list Effect :=
  let (returned, g) := main_body path port env {| effects := []; deferred := [] |} in
  if returned then effects g ++ map Deferred (fst (unwind (deferred g)))
  else effects g.

(** The calls of a start that goes through, in program order. *)
Definition startup_sequence (path : string) (port : Z) (env : Env)
  : list Effect :=
  [ Open path;
    Ioctl V4L2.VIDIOC_S_FMT;
    Ioctl V4L2.VIDIOC_REQBUFS;
    Ioctl V4L2.VIDIOC_QUERYBUF;
    Mmap (buf_offset env) (buf_length env);
    Ioctl V4L2.VIDIOC_QBUF;
    Ioctl V4L2.VIDIOC_STREAMON;
    GoFramePump;
    Handle "/image.jpg";
    ListenAndServe port ].

Definition all_ok (env : Env) : bool :=
  (open_err env =? 0) && (s_fmt env =? 0) && (reqbufs env =? 0) &&
  (querybuf env =? 0) && (mmap_err env =? 0) && (qbuf env =? 0) &&
  (streamon env =? 0).

End Main.

(** ** More vocabulary *)

(** [n] rounds of "the driver completes a frame of the given length,
    the pump runs one iteration". *)
Definition iterations (ls : list Z) : list Event :=
  flat_map (λ n, DevDone n :: pump_iteration) ls.

(** The events a request takes. *)
Definition is_request (e : Event) : bool :=
  match e with
  | ReqRLock _ | ReqSetHeader _ | ReqSlice _ | ReqWrite _ | ReqRUnlock _ => true
  | _ => false
  end.

(** The lengths a response may have: zero, or the length of an update. *)
Definition published_lengths (s : State) : list Z :=
  0 :: map snd (updates s).

Definition body_length (r : Response) : Z := Z.of_nat (List.length (body r)).

(** Lengths in flight and lengths served. *)
Record LenInv (s : State) : Prop := {
  len_written : ∀ i r, handlers s !! i = Some (HWritten r) →
                body_length r = jpegLen s;
  len_served : ∀ i r, (i, Responded r) ∈ served s →
               body_length r ∈ published_lengths s }.

(** States used to exercise the properties: a frame of three bytes
    published and one request answered; the pump returned after a failed
    wait, and after a failed enqueue; a request that has sliced. *)
Definition after_one_frame : State :=
  finish 0 (Responded {| header := no_store; body := firstn 3 blank |})
    (set_pump PcSelect
       (set_slot Queued (store_len 3 (init blank)))).

Definition after_failed_wait : State :=
  set_pump (PcReturned 4) (init blank).

Definition after_failed_enqueue : State :=
  set_pump (PcReturned 5) at_enqueue.

Definition while_locked : State :=
  set_handlers {[ 0%nat := HLocked ]}
    (set_mutex {| RWMutex.writer := false; RWMutex.readers := 1 |}
       (init blank)).


(** * Properties *)

(** ** Basic facts about the building blocks *)

Lemma length_overwrite (off : nat) (bs data : list byte) :
  (off + List.length bs ≤ List.length data)%nat →
  List.length (overwrite off bs data) = List.length data.
Proof.
  intros Hfit. unfold overwrite.
  rewrite !length_app, length_take, length_drop. lia.
Qed.

Lemma wrap32_range (z : Z) : 0 ≤ wrap32 z < 2 ^ 32.
Proof. unfold wrap32. apply Z.mod_pos_bound. lia. Qed.


Lemma slice_to_in_bounds (data : list byte) (n : Z) :
  0 ≤ n ≤ Z.of_nat (List.length data) →
  slice_to data n = Some (firstn (Z.to_nat n) data).
Proof.
  intros [Hlo Hhi]. unfold slice_to.
  apply Z.leb_le in Hlo. apply Z.leb_le in Hhi. by rewrite Hlo, Hhi.
Qed.


Lemma slice_to_Some (data : list byte) (n : Z) (bs : list byte) :
  slice_to data n = Some bs →
  0 ≤ n ≤ Z.of_nat (List.length data) ∧ bs = firstn (Z.to_nat n) data.
Proof.
  unfold slice_to. destruct (0 <=? n) eqn:Hlo; [|done].
  destruct (n <=? Z.of_nat (List.length data)) eqn:Hhi; [|done].
  simpl. intros [= <-]. apply Z.leb_le in Hlo. apply Z.leb_le in Hhi. done.
Qed.

Lemma RUnlock_RLock (m m1 : RWMutex.t) :
  RWMutex.RLock m = Some m1 → RWMutex.RUnlock m1 = Some m.
Proof.
  destruct m as [w n]. unfold RWMutex.RLock, RWMutex.RUnlock. simpl.
  destruct w; [done|]. by intros [= <-].
Qed.

(** ** The invariant of the transition system *)

Lemma handler_ok_frame (s s' : State) (h : Handler) :
  jpegLen s' = jpegLen s →
  List.length (data s') = List.length (data s) →
  handler_ok s h → handler_ok s' h.
Proof.
  intros Hn Hd. destruct h; simpl; try done.
  rewrite Hn, Hd. done.
Qed.

(** Side conditions of the invariant that speak of the pump's program
    point are settled by comparing constructors. *)
Ltac pc_cases :=
  let e := fresh "e" in
  let H := fresh "H" in
  intros e H; simpl in *;
  repeat match goal with
         | H' : _ ∨ _ |- _ => destruct H' as [H'|H']
         end;
  simplify_eq; try done; eauto.

Ltac inv_fields := split; simpl; try done; try (by pc_cases).

Lemma Inv_init (data0 : list byte) : Inv data0 (init data0).
Proof.
  inv_fields.
  intros i r Hin. by apply elem_of_nil in Hin.
Qed.

Lemma device_step_Inv (data0 : list byte) (e : Event) (s s' : State) :
  Inv data0 s → device_step e s = Some s' → Inv data0 s'.
Proof.
  intros [] Hstep. unfold device_step in Hstep.
  destruct e, (slot s) eqn:Hslot; simplify_eq.
  - destruct (off + List.length bs <=? List.length (data s))%nat eqn:Hfit;
      simplify_eq.
    apply Nat.leb_le in Hfit.
    inv_fields.
    + by rewrite length_overwrite.
    + intros q Hq. by apply inv_slot0 in Hq.
    + intros q Hq. by discriminate (inv_slot0 q ltac:(tauto)).
    + intros i h Hi. eapply handler_ok_frame; [| |by eauto]; simpl; [done|].
      by rewrite length_overwrite.
  - inv_fields.
    intros q Hq. by apply inv_slot0 in Hq.
Qed.

Lemma pump_step_Inv (data0 : list byte) (e : Event) (s s' : State) :
  Inv data0 s → pump_step e s = Some s' → Inv data0 s'.
Proof.
  intros HI Hstep. unfold pump_step in Hstep.
  destruct e, (pump s) eqn:Hpc; simplify_eq.
  - (* select *)
    destruct HI. destruct (errno =? 0) eqn:Herr.
    + destruct (slot s); simplify_eq.
      inv_fields; try (by rewrite inv_cs0, Hpc).
    + simplify_eq. apply Z.eqb_neq in Herr.
      inv_fields; try (by rewrite inv_cs0, Hpc).
  - (* lock *)
    destruct HI. destruct (mutex s) as [w n] eqn:Hm.
    unfold RWMutex.Lock in Hstep. simpl in *.
    destruct w; [done|]. destruct n; simpl in Hstep; simplify_eq.
    inv_fields.
  - (* dequeue *)
    destruct HI. destruct (errno =? 0) eqn:Herr.
    + destruct (slot s); simplify_eq.
      inv_fields; try (by rewrite inv_cs0, Hpc).
      intros q [= <-]. simpl. apply wrap32_range.
    + simplify_eq. apply Z.eqb_neq in Herr.
      inv_fields; try (by rewrite inv_cs0, Hpc).
  - (* store *)
    destruct HI. simplify_eq.
    assert (handlers s = ∅) as Hnone.
    { apply map_size_empty_inv. rewrite <- inv_readers0.
      apply inv_excl0. by rewrite inv_cs0, Hpc. }
    inv_fields; try (by rewrite inv_cs0, Hpc).
    + by apply inv_qbuf0.
    + intros i h. rewrite Hnone. by rewrite lookup_empty.
  - (* unlock after a failed dequeue *)
    destruct HI. destruct (mutex s) as [w n] eqn:Hm.
    unfold RWMutex.Unlock in Hstep. simpl in *.
    destruct w; simpl in Hstep; simplify_eq.
    inv_fields.
  - (* unlock *)
    destruct HI. destruct (mutex s) as [w n] eqn:Hm.
    unfold RWMutex.Unlock in Hstep. simpl in *.
    destruct w; simpl in Hstep; simplify_eq.
    inv_fields.
  - (* enqueue *)
    destruct HI. destruct (errno =? 0) eqn:Herr; simplify_eq.
    + inv_fields; try (by rewrite inv_cs0, Hpc).
    + apply Z.eqb_neq in Herr.
      inv_fields; try (by rewrite inv_cs0, Hpc).
Qed.

Lemma handlers_insert_ok (s s' : State) (i : nat) (h : Handler) :
  jpegLen s' = jpegLen s →
  List.length (data s') = List.length (data s) →
  (∀ j h', handlers s !! j = Some h' → handler_ok s h') →
  handler_ok s h →
  ∀ j h', <[i := h]> (handlers s) !! j = Some h' → handler_ok s' h'.
Proof.
  intros Hn Hd Hall Hh j h' Hj.
  apply (handler_ok_frame s s'); [done..|].
  destruct (decide (i = j)) as [->|Hne].
  - rewrite lookup_insert_eq in Hj. by simplify_eq.
  - rewrite lookup_insert_ne in Hj by done. by eauto.
Qed.

Lemma handler_step_Inv (data0 : list byte) (e : Event) (s s' : State) :
  Inv data0 s → handler_step e s = Some s' → Inv data0 s'.
Proof.
  intros HI Hstep. unfold handler_step in Hstep.
  destruct e; simplify_eq; destruct (handlers s !! i) as [h|] eqn:Hi;
    simplify_eq.
  - (* RLock *)
    destruct HI. destruct (mutex s) as [w n] eqn:Hm.
    unfold RWMutex.RLock in Hstep. simpl in *.
    destruct w; simpl in Hstep; simplify_eq.
    inv_fields.
    + rewrite map_size_insert_None by done. by f_equal.
    + by apply (handlers_insert_ok s).
  - (* header *)
    destruct h; simplify_eq. destruct HI.
    inv_fields.
    + by rewrite map_size_insert_Some.
    + by apply (handlers_insert_ok s).
  - (* slice *)
    destruct h; simplify_eq. destruct HI.
    pose proof (inv_handlers0 _ _ Hi) as Hh. simpl in Hh.
    destruct (slice_to (data s) (jpegLen s)) as [bs|] eqn:Hsl; simplify_eq.
    + apply slice_to_Some in Hsl as [Hb _].
      inv_fields.
      * by rewrite map_size_insert_Some.
      * by apply (handlers_insert_ok s).
    + inv_fields.
      * by rewrite map_size_insert_Some.
      * by apply (handlers_insert_ok s).
  - (* write *)
    destruct h; simplify_eq. destruct HI.
    pose proof (inv_handlers0 _ _ Hi) as Hh. simpl in Hh.
    inv_fields.
    + by rewrite map_size_insert_Some.
    + apply (handlers_insert_ok s); try done. simpl. by destruct Hh.
  - (* RUnlock *)
    destruct HI. pose proof (inv_handlers0 _ _ Hi) as Hh.
    assert (∃ r, (h = HPanic ∧ r = Panicked ∨
                  ∃ resp, h = HWritten resp ∧ r = Responded resp) ∧
                 RWMutex.RUnlock (mutex s) ≫=
                   (λ m, Some (finish i r (set_mutex m s))) = Some s')
      as (r & Hr & Hstep').
    { destruct h; simplify_eq; eauto 8. }
    clear Hstep. destruct (mutex s) as [w n] eqn:Hm.
    unfold RWMutex.RUnlock in Hstep'. simpl in *.
    destruct n as [|k]; simpl in Hstep'; [done|].
    assert (w = false) as ->.
    { destruct w; [|done]. by specialize (inv_excl0 eq_refl). }
    simplify_eq.
    inv_fields.
    + rewrite map_size_delete_Some by done. by rewrite <- inv_readers0.
    + intros j h' Hj. apply lookup_delete_Some in Hj as [_ Hj]. by eauto.
    + intros j resp Hin. apply elem_of_cons in Hin as [Heq|Hin]; [|by eauto].
      destruct Hr as [[-> ->]|(resp' & -> & ->)]; simplify_eq. done.
Qed.

Lemma step_Inv (data0 : list byte) (e : Event) (s s' : State) :
  Inv data0 s → step e s = Some s' → Inv data0 s'.
Proof.
  intros HI Hstep. unfold step in Hstep.
  destruct (exited s); [done|].
  destruct e;
    try (by eapply device_step_Inv);
    try (by eapply pump_step_Inv);
    try (by eapply handler_step_Inv).
  simplify_eq. destruct HI. by inv_fields.
Qed.

Lemma run_Inv (data0 : list byte) (tr : list Event) (s s' : State) :
  Inv data0 s → run tr s = Some s' → Inv data0 s'.
Proof.
  revert s. induction tr as [|e tr IH]; intros s HI Hrun; simpl in Hrun.
  - by simplify_eq.
  - apply bind_Some in Hrun as (s1 & Hstep & Hrun).
    eapply IH; [|done]. by eapply step_Inv.
Qed.

Lemma reachable_Inv (data0 : list byte) (s : State) :
  reachable data0 s → Inv data0 s.
Proof. intros [tr Hrun]. eapply run_Inv; [apply Inv_init|done]. Qed.

Lemma run_app (tr1 tr2 : list Event) (s : State) :
  run (tr1 ++ tr2) s = s' ← run tr1 s; run tr2 s'.
Proof.
  revert s. induction tr1 as [|e tr1 IH]; intros s; simpl; [done|].
  destruct (step e s) as [s1|]; simpl; [apply IH|done].
Qed.

Lemma run_app_Some (tr1 tr2 : list Event) (s s1 : State) :
  run tr1 s = Some s1 → run (tr1 ++ tr2) s = run tr2 s1.
Proof. intros Hrun. by rewrite run_app, Hrun. Qed.

Lemma reachable_run (data0 : list byte) (tr : list Event) (s s' : State) :
  reachable data0 s → run tr s = Some s' → reachable data0 s'.
Proof.
  intros [tr0 Hrun0] Hrun. exists (tr0 ++ tr).
  rewrite run_app, Hrun0. done.
Qed.

(** ** Uninterrupted runs *)

(** A request that is not interleaved with anything does what [getJPEG]
    computes; after a panic the write is skipped and the deferred
    [RUnlock] runs. *)
Lemma run_request (s : State) (i : nat) :
  exited s = None →
  handlers s !! i = None →
  RWMutex.writer (mutex s) = false →
  ∃ r, getJPEG (data s) (mutex s) (jpegLen s) = Some (mutex s, r) ∧
       run (events_of i r) s = Some (finish i r s).
Proof.
  destruct s as [[w k] n d sl p hs sv us ex]. simpl.
  intros -> Hi ->.
  unfold getJPEG, RWMutex.RLock. simpl.
  destruct (slice_to d n) as [bs|] eqn:Hsl; simpl;
    (eexists; split; [done|]);
    unfold events_of, request, run, step, handler_step, RWMutex.RLock; simpl;
    rewrite Hi; simpl;
    repeat (rewrite ?lookup_insert_eq, ?insert_insert_eq, ?Hsl; simpl);
    unfold finish, set_mutex; simpl; rewrite delete_insert_eq; [|done].
  apply slice_to_Some in Hsl as [_ ->]. done.
Qed.

(** One successful pump iteration from the top of the loop, with a
    filled slot waiting and nobody holding the lock. *)
Lemma run_pump_iteration (s : State) (n : Z) :
  exited s = None →
  pump s = PcSelect →
  slot s = Done n →
  mutex s = RWMutex.zero →
  run pump_iteration s =
    Some (set_pump PcSelect
            (set_slot Queued
               (set_mutex RWMutex.zero (store_len (wrap32 n) s)))).
Proof.
  destruct s as [m l d sl p hs sv us ex]. simpl.
  intros -> -> -> ->. reflexivity.
Qed.

(** ** getJPEG, case by case *)

Lemma getJPEG_in_bounds (data : list byte) (m : RWMutex.t) (n : Z) :
  RWMutex.writer m = false →
  0 ≤ n ≤ Z.of_nat (List.length data) →
  getJPEG data m n =
    Some (m, Responded {| header := no_store;
                          body := firstn (Z.to_nat n) data |}).
Proof.
  intros Hw Hn. unfold getJPEG.
  destruct (RWMutex.RLock m) as [m1|] eqn:Hlock.
  - simpl. rewrite (slice_to_in_bounds _ _ Hn).
    by rewrite (RUnlock_RLock _ _ Hlock).
  - unfold RWMutex.RLock in Hlock. by rewrite Hw in Hlock.
Qed.


(** ** Reading before the first frame *)




(** ** Reads against the pump and the driver *)


(** What it does not: a request can hold the read lock while the
    driver owns the slot and writes into the mapping. *)
Lemma reader_alongside_driver :
  ∃ s s', reachable blank s ∧
          handlers s !! 0%nat = Some HLocked ∧
          slot s = Queued ∧
          step (DevWrite 0 frame_b) s = Some s' ∧
          data s' ≠ data s.
Proof.
  eexists _, _. split; [exists [ReqRLock 0]; vm_compute; reflexivity|].
  split; [vm_compute; reflexivity|].
  split; [reflexivity|].
  split; [vm_compute; reflexivity|]. done.
Qed.

(** C2: with a single pump update, a request that holds the read lock
    from before the slot is handed back to the driver until after the
    driver has begun the next frame completes with a body that belongs
    to no update: the length of [frame_a] over bytes of [frame_b]. *)
Theorem C2_torn_read :
  ∃ s r,
    run torn_trace (init blank) = Some s ∧
    updates s = [(frame_a, 4)] ∧
    served s = [(0%nat, Responded r)] ∧
    body r = [xb1; xb2; xb3; xa4] ∧
    untornb (updates s) r = false.
Proof.
  eexists _, _. split; [vm_compute; reflexivity|].
  repeat split.
Qed.



(** ** The order of unlock and enqueue *)

(** Steps of the driver and of the requests leave the pump where it
    is, and no step of a goroutine or of the driver ends the process. *)
Lemma device_step_pump (e : Event) (s s' : State) :
  device_step e s = Some s' → pump s' = pump s ∧ exited s' = exited s.
Proof.
  unfold device_step. intros Hstep.
  destruct e, (slot s); simplify_eq; try done.
  by destruct (_ <=? _)%nat; simplify_eq.
Qed.

Lemma handler_step_pump (e : Event) (s s' : State) :
  handler_step e s = Some s' → pump s' = pump s ∧ exited s' = exited s.
Proof.
  unfold handler_step. intros Hstep.
  destruct e; simplify_eq;
    destruct (handlers s !! i) as [[]|]; simplify_eq; try done;
    try (destruct (slice_to _ _); by simplify_eq);
    apply bind_Some in Hstep as (m & _ & ?); by simplify_eq.
Qed.

Lemma pump_step_exited (e : Event) (s s' : State) :
  pump_step e s = Some s' → exited s' = exited s.
Proof.
  unfold pump_step. intros Hstep.
  destruct e, (pump s); simplify_eq; try done;
    try (destruct (errno =? 0); [destruct (slot s)|]; by simplify_eq);
    try (destruct (errno =? 0); by simplify_eq);
    apply bind_Some in Hstep as (m & _ & ?); by simplify_eq.
Qed.

(** How the pump's program point can change in one step. *)
Lemma step_pump (e : Event) (s s' : State) :
  step e s = Some s' →
  pump s' = pump s ∨
  match e, pump s with
  | PumpSelect errno, PcSelect =>
      pump s' = (if errno =? 0 then PcLock else PcReturned errno)
  | PumpLock, PcLock => pump s' = PcDqbuf
  | PumpDqbuf errno, PcDqbuf =>
      if errno =? 0 then ∃ q, pump s' = PcStore q
      else pump s' = PcUnlockErr errno
  | PumpStore, PcStore q => pump s' = PcUnlock q
  | PumpUnlock, PcUnlock q => pump s' = PcQbuf q
  | PumpUnlock, PcUnlockErr errno => pump s' = PcReturned errno
  | PumpQbuf errno, PcQbuf q =>
      pump s' = (if errno =? 0 then PcSelect else PcReturned errno)
  | _, _ => False
  end.
Proof.
  unfold step. destruct (exited s); [done|]. intros Hstep.
  destruct e;
    try (left; by eapply device_step_pump);
    try (left; by eapply handler_step_pump);
    try (left; by simplify_eq);
    right; unfold pump_step in Hstep; destruct (pump s); simplify_eq;
    try (destruct (errno =? 0); [destruct (slot s)|]; by simplify_eq; eauto);
    try (destruct (errno =? 0); by simplify_eq);
    try done;
    try (apply bind_Some in Hstep as (m & _ & ?); by simplify_eq).
Qed.

(** C4: the enqueue of line 169 is taken only with the exclusive lock
    released and the pump outside its critical section; the program
    point of the enqueue is entered by the unlock of line 166 and by
    nothing else, and left by the enqueue and by nothing else; and while
    any request holds the lock shared, the pump is outside the critical
    section.  So no enqueue ever happens inside the critical section,
    whether or not a reader is present. *)
Theorem C4_enqueue_follows_unlock (data0 : list byte) (s : State) :
  reachable data0 s →
  (∀ errno s', step (PumpQbuf errno) s = Some s' →
     RWMutex.writer (mutex s) = false ∧
     in_critical_section (pump s) = false) ∧
  (∀ e s' q, step e s = Some s' → pump s' = PcQbuf q →
     pump s = PcQbuf q ∨ (e = PumpUnlock ∧ pump s = PcUnlock q)) ∧
  (∀ e s' q, pump s = PcQbuf q → step e s = Some s' →
     pump s' ≠ PcQbuf q → ∃ errno, e = PumpQbuf errno) ∧
  (handlers s ≠ ∅ →
     RWMutex.writer (mutex s) = false ∧
     in_critical_section (pump s) = false).
Proof.
  intros Hreach. destruct (reachable_Inv _ _ Hreach).
  repeat split.
  - rewrite inv_cs0. unfold step in H. destruct (exited s); [done|].
    unfold pump_step in H. by destruct (pump s).
  - unfold step in H. destruct (exited s); [done|].
    unfold pump_step in H. by destruct (pump s).
  - intros e s' q Hstep Hq. apply step_pump in Hstep as [Hsame|Hmove].
    { left. congruence. }
    right. rewrite Hq in Hmove.
    destruct e, (pump s) eqn:Hpc; try done;
      try (by destruct (errno =? 0); simplify_eq);
      try (by destruct (errno =? 0); [destruct Hmove as [q' Hmove]|];
           simplify_eq).
    by simplify_eq.
  - intros e s' q Hpc Hstep Hne. apply step_pump in Hstep as [Hsame|Hmove].
    { congruence. }
    rewrite Hpc in Hmove. destruct e; try done. by eexists.
  - destruct (RWMutex.writer (mutex s)) eqn:Hw; [|done].
    specialize (inv_excl0 eq_refl). rewrite inv_readers0 in inv_excl0.
    by apply map_size_empty_inv in inv_excl0.
  - rewrite <- inv_cs0.
    destruct (RWMutex.writer (mutex s)) eqn:Hw; [|done].
    specialize (inv_excl0 eq_refl). rewrite inv_readers0 in inv_excl0.
    by apply map_size_empty_inv in inv_excl0.
Qed.

Lemma C4_enqueue_follows_unlock_witness :
  reachable blank at_enqueue ∧
  ∀ errno s', step (PumpQbuf errno) at_enqueue = Some s' →
    RWMutex.writer (mutex at_enqueue) = false ∧
    in_critical_section (pump at_enqueue) = false.
Proof.
  assert (reachable blank at_enqueue) as Hreach.
  { exists before_enqueue. vm_compute. reflexivity. }
  split; [exact Hreach|].
  exact (proj1 (C4_enqueue_follows_unlock blank at_enqueue Hreach)).
Defined.

(** ** Device errors in the pump *)

(** Once the pump has returned it takes no further step. *)
Lemma returned_pump_stays (e : Event) (s s' : State) (err : Errno) :
  pump s = PcReturned err → step e s = Some s' → pump s' = PcReturned err.
Proof.
  intros Hpc Hstep. apply step_pump in Hstep as [Hsame|Hmove].
  - congruence.
  - rewrite Hpc in Hmove. by destruct e.
Qed.

Lemma returned_pump_stays_run (tr : list Event) (s s' : State) (err : Errno) :
  pump s = PcReturned err → run tr s = Some s' → pump s' = PcReturned err.
Proof.
  revert s. induction tr as [|e tr IH]; intros s Hpc Hrun; simpl in Hrun.
  - by simplify_eq.
  - apply bind_Some in Hrun as (s1 & Hstep & Hrun).
    eapply IH; [|done]. by eapply returned_pump_stays.
Qed.


(** The process ends only through the server: no step of the pump, of
    the driver or of a request sets an exit status. *)
Lemma exit_only_by_server (tr : list Event) (s s' : State) :
  exited s = None → run tr s = Some s' → ListenFail ∉ tr → exited s' = None.
Proof.
  revert s. induction tr as [|e tr IH]; intros s Hex Hrun Hno; simpl in Hrun.
  - by simplify_eq.
  - apply bind_Some in Hrun as (s1 & Hstep & Hrun).
    apply not_elem_of_cons in Hno as [Hne Hno].
    eapply IH; [|done..]. rewrite <- Hex.
    unfold step in Hstep. rewrite Hex in Hstep.
    destruct e; try done;
      try (by eapply device_step_pump);
      try (by eapply pump_step_exited);
      by eapply handler_step_pump.
Qed.

(** C5: in each of the three cases the pump returns the error and
    stays returned, but the value returned by the goroutine of line 282
    goes nowhere: the process has no exit status, and the next request
    is served as before. *)
Theorem C5_pump_error_is_swallowed :
  (∃ s s', run select_fails (init blank) = Some s ∧
           pump s = PcReturned 4 ∧ exited s = None ∧
           run (request 0) s = Some s' ∧ exited s' = None ∧
           pump s' = PcReturned 4 ∧ List.length (served s') = 1%nat) ∧
  (∃ s s', run dequeue_fails (init blank) = Some s ∧
           pump s = PcReturned 5 ∧ exited s = None ∧
           run (request 0) s = Some s' ∧ exited s' = None ∧
           pump s' = PcReturned 5 ∧ List.length (served s') = 1%nat) ∧
  (∃ s s', run enqueue_fails (init blank) = Some s ∧
           pump s = PcReturned 5 ∧ exited s = None ∧
           run (request 0) s = Some s' ∧ exited s' = None ∧
           pump s' = PcReturned 5 ∧ List.length (served s') = 1%nat).
Proof.
  repeat split; eexists _, _;
    (split; [vm_compute; reflexivity|]);
    repeat split; vm_compute; reflexivity.
Qed.

(** ** What readers get after the pump has stopped *)

(** The lock is never left held by a pump that has returned. *)
Lemma returned_pump_holds_no_lock (data0 : list byte) (s : State) (err : Errno) :
  reachable data0 s → pump s = PcReturned err →
  RWMutex.writer (mutex s) = false.
Proof.
  intros Hreach Hpc. destruct (reachable_Inv _ _ Hreach).
  by rewrite inv_cs0, Hpc.
Qed.

Lemma frozen_step (d : list byte) (n : Z) (us : list (list byte * Z))
    (err : Errno) (e : Event) (s s' : State) :
  frozen d n us err s → step e s = Some s' → frozen d n us err s'.
Proof.
  intros (Hpc & Hslot & Hd & Hn & Hus) Hstep.
  pose proof (returned_pump_stays _ _ _ _ Hpc Hstep) as Hpc'.
  unfold frozen. split; [done|].
  unfold step in Hstep. destruct (exited s); [done|].
  destruct e;
    try (unfold device_step in Hstep; rewrite Hslot in Hstep; done);
    try (unfold pump_step in Hstep; rewrite Hpc in Hstep; done);
    try (by simplify_eq);
    unfold handler_step in Hstep;
    destruct (handlers s !! i) as [[]|]; simplify_eq; try done;
    try (destruct (slice_to _ _); by simplify_eq);
    apply bind_Some in Hstep as (m & _ & ?); by simplify_eq.
Qed.

Lemma frozen_run (d : list byte) (n : Z) (us : list (list byte * Z))
    (err : Errno) (tr : list Event) (s s' : State) :
  frozen d n us err s → run tr s = Some s' → frozen d n us err s'.
Proof.
  revert s. induction tr as [|e tr IH]; intros s Hfr Hrun; simpl in Hrun.
  - by simplify_eq.
  - apply bind_Some in Hrun as (s1 & Hstep & Hrun).
    eapply IH; [|done]. by eapply frozen_step.
Qed.

(** After a failed enqueue the slot stays with the program, so every
    later request is served the frame of the last update, as long as
    that frame fits the mapping. *)
Lemma enqueue_failure_serves_last_frame
    (data0 : list byte) (s s1 s2 : State) (q : V4L2.v4l2_buffer)
    (err : Errno) (tr : list Event) (i : nat) :
  reachable data0 s →
  pump s = PcQbuf q →
  err ≠ 0 →
  step (PumpQbuf err) s = Some s1 →
  run tr s1 = Some s2 →
  exited s2 = None →
  handlers s2 !! i = None →
  jpegLen s ≤ Z.of_nat (List.length (data s)) →
  ∃ us,
    updates s2 = (data s, jpegLen s) :: us ∧
    RWMutex.writer (mutex s2) = false ∧
    run (request i) s2 =
      Some (finish i (Responded {| header := no_store;
                                   body := frame_of (data s, jpegLen s) |})
              s2).
Proof.
  intros Hreach Hpc Herr Hstep Hrun Hex Hi Hfit.
  destruct (reachable_Inv _ _ Hreach).
  destruct (inv_latest0 q) as [us Hus]; [by right|].
  assert (frozen (data s) (jpegLen s) (updates s) err s1) as Hfr.
  { unfold step in Hstep. destruct (exited s); [done|].
    unfold pump_step in Hstep. rewrite Hpc in Hstep.
    apply Z.eqb_neq in Herr. rewrite Herr in Hstep. simplify_eq.
    repeat split. simpl. apply (inv_slot0 q). tauto. }
  destruct (frozen_run _ _ _ _ _ _ _ Hfr Hrun) as (Hpc2 & _ & Hd & Hn & Hus2).
  assert (reachable data0 s2) as Hreach2.
  { eapply reachable_run; [|exact Hrun].
    eapply (reachable_run _ [PumpQbuf err]); [exact Hreach|].
    simpl. by rewrite Hstep. }
  pose proof (returned_pump_holds_no_lock _ _ _ Hreach2 Hpc2) as Hw.
  exists us. split; [congruence|]. split; [done|].
  destruct (run_request s2 i Hex Hi Hw) as (r & Hget & Hreq).
  rewrite Hd, Hn, getJPEG_in_bounds in Hget by (done || lia).
  by simplify_eq.
Qed.

(** C6: after a failed dequeue the lock is free and the stored length
    is still that of the last update, but the bytes are not: the driver
    filled the slot before the dequeue was attempted, so the request
    that follows is served the old length over the new bytes. *)
Theorem C6_failed_dequeue_serves_unpublished_bytes :
  ∃ s r,
    run failed_dequeue_trace (init blank) = Some s ∧
    pump s = PcReturned 5 ∧
    mutex s = RWMutex.zero ∧
    jpegLen s = 4 ∧
    updates s = [(frame_a, 4)] ∧
    served s = [(0%nat, Responded r)] ∧
    body r = [xb1; xb2; xb3; xa4] ∧
    untornb (updates s) r = false.
Proof.
  eexists _, _. split; [vm_compute; reflexivity|].
  repeat split.
Qed.

(** ** Stopping the pump *)




(** ** Shutdown *)



(** ** The response header *)

(** C9: every response the endpoint has sent, at any point of any run,
    carries [Cache-Control: no-store]. *)
Theorem C9_every_response_no_store
    (data0 : list byte) (s : State) (i : nat) (r : Response) :
  reachable data0 s →
  (i, Responded r) ∈ served s →
  header r !! "Cache-Control" = Some "no-store".
Proof.
  intros Hreach Hin. destruct (reachable_Inv _ _ Hreach).
  rewrite (inv_served0 _ _ Hin). apply lookup_insert_eq.
Qed.

Lemma C9_every_response_no_store_witness :
  header {| header := no_store; body := [] |} !! "Cache-Control"
  = Some "no-store".
Proof.
  apply (C9_every_response_no_store blank
           (finish 0 (Responded {| header := no_store; body := [] |})
              (init blank)) 0).
  - exists (request 0). vm_compute. reflexivity.
  - simpl. left.
Defined.

(** ** The slice bound *)



(** A length beyond the mapping is reachable and makes the request
    panic instead of answering. *)
Lemma oversized_length_panics :
  ∃ s, run (DevDone 5 :: pump_iteration ++ events_of 0 Panicked)
           (init blank) = Some s ∧
       jpegLen s = 5 ∧
       served s = [(0%nat, Panicked)].
Proof. eexists. split; [vm_compute; reflexivity|]. done. Qed.

(** * Further properties of the program *)

(** ** uint8_to_string *)

Lemma fold_append (bs acc : list byte) :
  fold_left (λ ba b, ba ++ [b]) bs acc = acc ++ bs.
Proof.
  revert acc. induction bs as [|b bs IH]; intros acc; simpl.
  - by rewrite app_nil_r.
  - rewrite IH. by rewrite <- app_assoc.
Qed.

(** X1: the string holds exactly the bytes given, in order: reading its
    bytes back yields the input, and its length is the input's. *)
Theorem uint8_to_string_bytes (bs : list byte) :
  String.list_byte_of_string (uint8_to_string bs) = bs ∧
  String.length (uint8_to_string bs) = List.length bs.
Proof.
  unfold uint8_to_string. rewrite fold_append. simpl. split.
  - apply String.list_byte_of_string_of_list_byte.
  - unfold String.string_of_list_byte.
    induction bs as [|b bs IH]; simpl; [done|]. by rewrite IH.
Qed.

(** ** The descriptor set *)

Lemma shiftr8_small (fd : Z) : 0 ≤ fd < 256 → Z.shiftr fd 8 = 0.
Proof.
  intros Hfd. rewrite Z.shiftr_div_pow2 by lia.
  apply Z.div_small. simpl. lia.
Qed.

Lemma land63 (fd : Z) : Z.land fd 63 = fd mod 64.
Proof. change 63 with (Z.ones 6). by rewrite Z.land_ones by lia. Qed.

Lemma mark_low (W fd : Z) (n : nat) :
  0 ≤ fd < 256 →
  FdSet.mark W fd (FdSet.zero (S n)) =
    Some (2 ^ (fd mod 64) mod 2 ^ W :: FdSet.zero n).
Proof.
  intros Hfd. unfold FdSet.mark. rewrite shiftr8_small by done.
  simpl. rewrite land63, Z.shiftl_mul_pow2, Z.mul_1_l; [done|].
  apply Z.mod_pos_bound. lia.
Qed.

Lemma nth_zero (k n : nat) : nth k (FdSet.zero n) 0 = 0.
Proof. unfold FdSet.zero. apply nth_repeat. Qed.

(** Which descriptors [select] finds in the set after line 133. *)
Lemma marked_descriptors (W fd d : Z) (n : nat) (bits : list Z) :
  0 < W → 0 ≤ fd < 256 → 0 ≤ d →
  FdSet.mark W fd (FdSet.zero (S n)) = Some bits →
  FdSet.is_set W d bits = true ↔ d < W ∧ d = fd mod 64.
Proof.
  intros HW Hfd Hd. rewrite mark_low by done. intros [= <-].
  unfold FdSet.is_set.
  assert (0 ≤ fd mod 64 < 64) as Hs by (apply Z.mod_pos_bound; lia).
  destruct (Z_lt_ge_dec d W) as [Hlt|Hge].
  - rewrite (Z.div_small d W), (Z.mod_small d W) by lia.
    change (Z.to_nat 0) with 0%nat. cbn [nth].
    rewrite Z.mod_pow2_bits_low by lia.
    rewrite Z.pow2_bits_eqb by lia. rewrite Z.eqb_eq. split.
    + intros <-. done.
    + intros [_ ->]. done.
  - assert (1 ≤ d / W) as Hq.
    { apply Z.div_le_lower_bound; lia. }
    destruct (Z.to_nat (d / W)) as [|k] eqn:Hk; [lia|].
    cbn [nth]. rewrite nth_zero, Z.bits_0. split; [done|]. lia.
Qed.

(** X2: for a descriptor below the element width (at most 64), the set
    built by line 133 holds that descriptor and no other. *)
Theorem mark_small_descriptor (W fd : Z) (n : nat) :
  0 < W ≤ 64 → 0 ≤ fd < W →
  ∃ bits, FdSet.mark W fd (FdSet.zero (S n)) = Some bits ∧
          ∀ d, 0 ≤ d → FdSet.is_set W d bits = true ↔ d = fd.
Proof.
  intros HW Hfd. eexists. split; [apply mark_low; lia|]. intros d Hd.
  rewrite (marked_descriptors W fd d n) by (lia || apply mark_low; lia).
  rewrite Z.mod_small by lia. split; [by intros [_ ->]|]. intros ->. lia.
Qed.

Lemma mark_small_descriptor_witness :
  ∃ bits, FdSet.mark 64 3 (FdSet.zero 16) = Some bits ∧
          ∀ d, 0 ≤ d → FdSet.is_set 64 d bits = true ↔ d = 3.
Proof. apply (mark_small_descriptor 64 3 15); lia. Defined.

(** X3: for a descriptor from the element width up to 255 the index
    [fd>>8] is still 0, so the descriptor itself is not in the set;
    the only one that can be is [fd mod 64]. *)
Theorem mark_large_descriptor (W fd : Z) (n : nat) :
  0 < W ≤ 64 → W ≤ fd < 256 →
  ∃ bits, FdSet.mark W fd (FdSet.zero (S n)) = Some bits ∧
          FdSet.is_set W fd bits = false ∧
          ∀ d, 0 ≤ d → FdSet.is_set W d bits = true → d = fd mod 64.
Proof.
  intros HW Hfd. eexists. split; [apply mark_low; lia|]. split.
  - apply not_true_is_false.
    rewrite (marked_descriptors W fd fd n) by (lia || apply mark_low; lia).
    lia.
  - intros d Hd.
    rewrite (marked_descriptors W fd d n) by (lia || apply mark_low; lia).
    by intros [_ ->].
Qed.

Lemma mark_large_descriptor_witness :
  ∃ bits, FdSet.mark 64 70 (FdSet.zero 16) = Some bits ∧
          FdSet.is_set 64 70 bits = false ∧
          ∀ d, 0 ≤ d → FdSet.is_set 64 d bits = true → d = 70 mod 64.
Proof. apply (mark_large_descriptor 64 70 15); lia. Defined.

(** X4: line 133 panics (index out of range) exactly for a negative
    descriptor or one of 256 times the array length and more. *)
Theorem mark_panics_iff (W fd : Z) (bits : list Z) :
  FdSet.mark W fd bits = None ↔
  fd < 0 ∨ 256 * Z.of_nat (List.length bits) ≤ fd.
Proof.
  unfold FdSet.mark. rewrite Z.shiftr_div_pow2 by lia.
  change (2 ^ 8) with 256.
  destruct (0 <=? fd / 256) eqn:Hlo; simpl.
  - apply Z.leb_le in Hlo.
    assert (0 ≤ fd).
    { destruct (Z_lt_ge_dec fd 0) as [Hneg|]; [|lia].
      assert (fd / 256 < 0) by (apply Z.div_lt_upper_bound; lia). lia. }
    destruct (fd / 256 <? Z.of_nat (List.length bits)) eqn:Hhi.
    + apply Z.ltb_lt in Hhi. split; [done|]. intros [?|Hge]; [lia|].
      assert (Z.of_nat (List.length bits) ≤ fd / 256)
        by (apply Z.div_le_lower_bound; lia). lia.
    + apply Z.ltb_ge in Hhi. split; [|done]. intros _. right.
      pose proof (Z.mul_div_le fd 256). nia.
  - apply Z.leb_gt in Hlo. split; [|done]. intros _. left.
    destruct (Z_lt_ge_dec fd 0) as [|Hge]; [done|].
    assert (0 ≤ fd / 256) by (apply Z.div_pos; lia). lia.
Qed.

(** ** main *)

(** X5: whatever the system calls return, main ends in [log.Fatal]:
    it performs a prefix of the startup sequence, logs, and exits with
    status 1.  It never returns, so none of its deferred calls (the
    close, the unmap, the stream stop) is ever run. *)
Theorem main_always_exits (path : string) (port : Z) (env : Main.Env) :
  ∃ pre msg err,
    Main.main path port env = pre ++ [Main.LogFatal msg err; Main.OsExit 1] ∧
    pre `prefix_of` Main.startup_sequence path port env.
Proof.
  unfold Main.main, Main.main_body, Main.startup_sequence,
    Main.fatal_unless_ok.
  destruct (Main.open_err env =? 0);
    [destruct (Main.s_fmt env =? 0);
     [destruct (Main.reqbufs env =? 0);
      [destruct (Main.querybuf env =? 0);
       [destruct (Main.mmap_err env =? 0);
        [destruct (Main.qbuf env =? 0);
         [destruct (Main.streamon env =? 0)|]|]|]|]|]|];
    simpl;
    match goal with
    | |- ∃ pre msg err, ?l = _ ∧ _ =>
        exists (removelast (removelast l))
    end;
    eexists _, _; (split; [reflexivity|]); simpl;
    eexists; reflexivity.
Qed.

(** X6: the pump is launched and the server started exactly when all
    seven startup calls succeed, and then only after the slot has been
    enqueued and the stream switched on, in that order; after any
    failure neither happens. *)
Theorem main_launches_pump_iff_startup_ok
    (path : string) (port : Z) (env : Main.Env) :
  match Main.all_ok env with
  | true =>
      Main.main path port env =
        Main.startup_sequence path port env ++
        [Main.LogFatal "" (Main.listen_err env); Main.OsExit 1]
  | false =>
      (Main.GoFramePump ∉ Main.main path port env) ∧
      (Main.ListenAndServe port ∉ Main.main path port env)
  end.
Proof.
  unfold Main.all_ok, Main.main, Main.main_body, Main.startup_sequence,
    Main.fatal_unless_ok.
  destruct (Main.open_err env =? 0);
    [destruct (Main.s_fmt env =? 0);
     [destruct (Main.reqbufs env =? 0);
      [destruct (Main.querybuf env =? 0);
       [destruct (Main.mmap_err env =? 0);
        [destruct (Main.qbuf env =? 0);
         [destruct (Main.streamon env =? 0)|]|]|]|]|]|];
    simpl; try reflexivity;
    split; intros Hin;
    repeat (apply elem_of_cons in Hin as [Heq|Hin]; [discriminate Heq|]);
    by apply elem_of_nil in Hin.
Qed.

(** Had main returned after a full start, its deferred calls would run
    in the order of [Shutdown.run_deferred]. *)
Lemma unwind_after_full_start (errno : Errno) :
  Main.unwind [Shutdown.stop_stream errno;
               Shutdown.emit Shutdown.Munmap;
               Shutdown.emit Shutdown.Close]
  = Shutdown.run_deferred errno.
Proof.
  unfold Shutdown.run_deferred, Shutdown.stop_stream. simpl.
  by destruct (errno =? 0).
Qed.

(** ** The pump over many frames *)

Lemma last_cons (x d : Z) (l : list Z) :
  List.last (x :: l) d = List.last l x.
Proof.
  revert x d. induction l as [|y l IH]; intros x d; [done|].
  change (List.last (x :: y :: l) d) with (List.last (y :: l) d).
  by rewrite !IH.
Qed.

Lemma run_iterations (ls : list Z) (s : State) :
  exited s = None →
  pump s = PcSelect →
  slot s = Queued →
  mutex s = RWMutex.zero →
  ∃ s', run (iterations ls) s = Some s' ∧
        exited s' = None ∧ pump s' = PcSelect ∧ slot s' = Queued ∧
        mutex s' = RWMutex.zero ∧
        data s' = data s ∧ handlers s' = handlers s ∧
        served s' = served s ∧
        updates s' = rev (map (λ n, (data s, wrap32 n)) ls) ++ updates s ∧
        jpegLen s' = List.last (map wrap32 ls) (jpegLen s).
Proof.
  revert s. induction ls as [|n ls IH]; intros s Hex Hpc Hslot Hm.
  - exists s. simpl. by repeat split.
  - set (s1 := set_slot (Done n) s).
    assert (run [DevDone n] s = Some s1) as Hdev.
    { simpl. unfold step, device_step. by rewrite Hex, Hslot. }
    pose proof (run_pump_iteration s1 n Hex Hpc eq_refl Hm) as Hit.
    set (s2 := set_pump PcSelect _) in Hit.
    destruct (IH s2 Hex eq_refl eq_refl eq_refl)
      as (s' & Hrun & ? & ? & ? & ? & Hd & Hh & Hsv & Hus & Hlen).
    exists s'. split.
    + change (iterations (n :: ls))
        with ([DevDone n] ++ pump_iteration ++ iterations ls).
      by rewrite (run_app_Some _ _ _ _ Hdev), (run_app_Some _ _ _ _ Hit).
    + repeat split; try done.
      * rewrite Hus. subst s2 s1. simpl. by rewrite <- app_assoc.
      * rewrite Hlen. subst s2 s1. simpl map. by rewrite last_cons.
Qed.

(** X7: after any number of frames, each completed by the driver and
    taken by one pump iteration, the pump is back at its wait with the
    lock free and the slot re-enqueued, one update has been recorded
    per frame, and [jpegLen] holds the length reported for the last
    frame, reduced to 32 bits (zero if there was none). *)
Theorem pump_publishes_each_frame (data0 : list byte) (ls : list Z) :
  ∃ s, run (iterations ls) (init data0) = Some s ∧
       pump s = PcSelect ∧ mutex s = RWMutex.zero ∧ slot s = Queued ∧
       map snd (updates s) = rev (map wrap32 ls) ∧
       jpegLen s = List.last (map wrap32 ls) 0.
Proof.
  destruct (run_iterations ls (init data0) eq_refl eq_refl eq_refl eq_refl)
    as (s & Hrun & _ & Hpc & Hslot & Hm & _ & _ & _ & Hus & Hlen).
  exists s. repeat split; try done.
  rewrite Hus, app_nil_r. rewrite <- map_rev, map_map. simpl.
  by rewrite <- map_rev.
Qed.

(** ** What requests touch *)

(** X8: no step of a request changes the stored length, the mapped
    buffer, the slot, the pump or the history of updates; a request
    only moves itself and the reader count. *)
Theorem request_steps_are_read_only (e : Event) (s s' : State) :
  is_request e = true →
  step e s = Some s' →
  jpegLen s' = jpegLen s ∧ data s' = data s ∧ slot s' = slot s ∧
  pump s' = pump s ∧ updates s' = updates s ∧
  RWMutex.writer (mutex s') = RWMutex.writer (mutex s).
Proof.
  intros He Hstep. unfold step in Hstep. destruct (exited s); [done|].
  destruct e; try done; unfold handler_step in Hstep;
    destruct (handlers s !! i) as [[]|]; simplify_eq; try done;
    try (destruct (slice_to _ _); by simplify_eq);
    apply bind_Some in Hstep as (m & Hm & ?); simplify_eq; simpl;
    repeat split;
    unfold RWMutex.RLock, RWMutex.RUnlock in Hm;
    destruct (mutex s) as [w [|k]]; simpl in *;
    try destruct w; by simplify_eq.
Qed.

Lemma request_steps_are_read_only_witness :
  step (ReqRLock 0) (init blank) = Some while_locked ∧
  jpegLen while_locked = jpegLen (init blank) ∧
  data while_locked = data (init blank) ∧
  slot while_locked = slot (init blank) ∧
  pump while_locked = pump (init blank) ∧
  updates while_locked = updates (init blank) ∧
  RWMutex.writer (mutex while_locked) = RWMutex.writer (mutex (init blank)).
Proof.
  assert (step (ReqRLock 0) (init blank) = Some while_locked) as Hstep
    by (vm_compute; reflexivity).
  split; [exact Hstep|].
  exact (request_steps_are_read_only (ReqRLock 0) (init blank) while_locked
           eq_refl Hstep).
Defined.

(** ** The lock *)

(** X9: in every reachable state the lock is held exclusively exactly
    while the pump is between its Lock and its Unlock, and the number of
    shared holders is the number of requests in flight; so with the pump
    outside that section and no request in flight the lock is free,
    whether requests ended by a response or by a panic. *)
Theorem lock_is_accounted_for (data0 : list byte) (s : State) :
  reachable data0 s →
  RWMutex.writer (mutex s) = in_critical_section (pump s) ∧
  RWMutex.readers (mutex s) = size (handlers s) ∧
  (in_critical_section (pump s) = true → handlers s = ∅) ∧
  (in_critical_section (pump s) = false → handlers s = ∅ →
     mutex s = RWMutex.zero).
Proof.
  intros Hreach. destruct (reachable_Inv _ _ Hreach).
  repeat split; try done.
  - intros Hcs. apply map_size_empty_inv. rewrite <- inv_readers0.
    apply inv_excl0. by rewrite inv_cs0.
  - intros Hcs Hnone. rewrite Hcs in inv_cs0.
    rewrite Hnone, map_size_empty in inv_readers0.
    destruct (mutex s) as [w k]. simpl in *. by subst.
Qed.

Lemma lock_is_accounted_for_witness :
  RWMutex.writer (mutex at_enqueue) = in_critical_section (pump at_enqueue) ∧
  RWMutex.readers (mutex at_enqueue) = size (handlers at_enqueue) ∧
  (in_critical_section (pump at_enqueue) = true → handlers at_enqueue = ∅) ∧
  (in_critical_section (pump at_enqueue) = false → handlers at_enqueue = ∅ →
     mutex at_enqueue = RWMutex.zero).
Proof.
  apply (lock_is_accounted_for blank at_enqueue).
  exists before_enqueue. vm_compute. reflexivity.
Defined.




(** ** Lengths of responses *)

Lemma LenInv_frame (s s' : State) :
  handlers s' = handlers s → served s' = served s →
  jpegLen s' = jpegLen s → updates s' = updates s →
  LenInv s → LenInv s'.
Proof.
  intros Hh Hsv Hn Hus [Hw Hs]. split.
  - intros i r. rewrite Hh, Hn. apply Hw.
  - intros i r. unfold published_lengths. rewrite Hsv, Hus. apply Hs.
Qed.

Lemma latest_len_published (s : State) :
  latest_len (updates s) ∈ published_lengths s.
Proof.
  unfold published_lengths. destruct (updates s) as [|[d n] us]; simpl.
  - apply list_elem_of_here.
  - apply list_elem_of_further, list_elem_of_here.
Qed.

Lemma LenInv_insert (s : State) (i : nat) (h : Handler) :
  (∀ r, h = HWritten r → body_length r = jpegLen s) →
  LenInv s → LenInv (set_handlers (<[i := h]> (handlers s)) s).
Proof.
  intros Hh [Hw Hs]. split; simpl; [|done].
  intros j r Hj. destruct (decide (i = j)) as [->|Hne].
  - rewrite lookup_insert_eq in Hj. simplify_eq. by apply Hh.
  - rewrite lookup_insert_ne in Hj by done. by eapply Hw.
Qed.

Lemma step_LenInv (data0 : list byte) (e : Event) (s s' : State) :
  Inv data0 s → LenInv s → step e s = Some s' → LenInv s'.
Proof.
  intros HI HL Hstep. unfold step in Hstep. destruct (exited s); [done|].
  destruct e.
  - (* the driver writes *)
    unfold device_step in Hstep. destruct (slot s); simplify_eq.
    destruct (_ <=? _)%nat; simplify_eq. by apply (LenInv_frame s).
  - unfold device_step in Hstep. destruct (slot s); simplify_eq.
    by apply (LenInv_frame s).
  - unfold pump_step in Hstep. destruct (pump s); simplify_eq.
    destruct (errno =? 0); [destruct (slot s)|]; simplify_eq;
      by apply (LenInv_frame s).
  - unfold pump_step in Hstep. destruct (pump s); simplify_eq.
    apply bind_Some in Hstep as (m & _ & ?). simplify_eq.
    by apply (LenInv_frame s).
  - unfold pump_step in Hstep. destruct (pump s); simplify_eq.
    destruct (errno =? 0); [destruct (slot s)|]; simplify_eq;
      by apply (LenInv_frame s).
  - (* the store *)
    unfold pump_step in Hstep. destruct (pump s) eqn:Hpc; simplify_eq.
    destruct HI, HL.
    assert (handlers s = ∅) as Hnone.
    { apply map_size_empty_inv. rewrite <- inv_readers0.
      apply inv_excl0. by rewrite inv_cs0, Hpc. }
    split; simpl.
    + intros i r. by rewrite Hnone, lookup_empty.
    + intros i r Hin. unfold published_lengths. simpl.
      apply len_served0 in Hin. unfold published_lengths in Hin.
      apply elem_of_cons in Hin as [->|Hin].
      * apply list_elem_of_here.
      * by do 2 apply list_elem_of_further.
  - unfold pump_step in Hstep. destruct (pump s); simplify_eq;
      apply bind_Some in Hstep as (m & _ & ?); simplify_eq;
      by apply (LenInv_frame s).
  - unfold pump_step in Hstep. destruct (pump s); simplify_eq.
    destruct (errno =? 0); simplify_eq; by apply (LenInv_frame s).
  - (* RLock *)
    unfold handler_step in Hstep. destruct (handlers s !! i); simplify_eq.
    apply bind_Some in Hstep as (m & _ & ?). simplify_eq.
    apply (LenInv_frame (set_handlers (<[i:=HLocked]> (handlers s)) s));
      try done.
    by apply LenInv_insert.
  - unfold handler_step in Hstep.
    destruct (handlers s !! i) as [[]|]; simplify_eq.
    by apply LenInv_insert.
  - unfold handler_step in Hstep.
    destruct (handlers s !! i) as [[]|]; simplify_eq.
    destruct (slice_to _ _); simplify_eq; by apply LenInv_insert.
  - (* the write *)
    unfold handler_step in Hstep.
    destruct (handlers s !! i) as [[]|] eqn:Hi; simplify_eq.
    apply LenInv_insert; [|done]. intros r [= <-].
    destruct HI. pose proof (inv_handlers0 _ _ Hi) as (_ & -> & Hb & Hb').
    unfold body_length. simpl. rewrite length_take. lia.
  - (* RUnlock *)
    unfold handler_step in Hstep.
    destruct (handlers s !! i) as [[]|] eqn:Hi; simplify_eq;
      apply bind_Some in Hstep as (m & _ & ?); simplify_eq;
      destruct HI, HL; split; simpl.
    + intros j r' Hj. apply lookup_delete_Some in Hj as [_ Hj]. by eauto.
    + intros j r' Hin. apply elem_of_cons in Hin as [Heq|Hin]; [|by eauto].
      simplify_eq. rewrite (len_written0 _ _ Hi), inv_jpegLen0.
      exact (latest_len_published s).
    + intros j r' Hj. apply lookup_delete_Some in Hj as [_ Hj]. by eauto.
    + intros j r' Hin. apply elem_of_cons in Hin as [Heq|Hin]; [|by eauto].
      simplify_eq.
  - simplify_eq. by apply (LenInv_frame s).
Qed.

Lemma run_LenInv (data0 : list byte) (tr : list Event) (s s' : State) :
  Inv data0 s → LenInv s → run tr s = Some s' → LenInv s'.
Proof.
  revert s. induction tr as [|e tr IH]; intros s HI HL Hrun; simpl in Hrun.
  - by simplify_eq.
  - apply bind_Some in Hrun as (s1 & Hstep & Hrun).
    eapply IH; [| |done]; [by eapply step_Inv|by eapply step_LenInv].
Qed.

(** X12: the length of every response ever sent is zero or the length
    stored by one of the updates: the lock keeps [jpegLen] from changing
    between the slice and the end of the request, whatever happens to
    the bytes. *)
Theorem response_length_is_a_published_length
    (data0 : list byte) (s : State) (i : nat) (r : Response) :
  reachable data0 s →
  (i, Responded r) ∈ served s →
  body_length r ∈ published_lengths s.
Proof.
  intros [tr Hrun] Hin.
  assert (LenInv (init data0)) as HL0.
  { split; simpl.
    - intros j r'. by rewrite lookup_empty.
    - intros j r' Hin'. by apply elem_of_nil in Hin'. }
  pose proof (run_LenInv _ _ _ _ (Inv_init data0) HL0 Hrun) as [_ Hs].
  by eapply Hs.
Qed.

Lemma response_length_is_a_published_length_witness :
  reachable blank after_one_frame ∧
  body_length {| header := no_store; body := firstn 3 blank |}
    ∈ published_lengths after_one_frame.
Proof.
  assert (reachable blank after_one_frame) as Hreach.
  { exists (DevDone 3 :: pump_iteration ++ request 0).
    vm_compute. reflexivity. }
  split; [exact Hreach|].
  apply (response_length_is_a_published_length blank after_one_frame 0
           _ Hreach).
  simpl. left.
Defined.

(** ** Witnesses for the general lemmas on errors *)



Lemma returned_pump_stays_run_witness :
  pump (finish 0 (Responded {| header := no_store; body := [] |})
          after_failed_wait) = PcReturned 4.
Proof.
  apply (returned_pump_stays_run (request 0) after_failed_wait).
  - reflexivity.
  - vm_compute. reflexivity.
Defined.

Lemma enqueue_failure_serves_last_frame_witness :
  ∃ us,
    updates after_failed_enqueue = (data at_enqueue, jpegLen at_enqueue) :: us ∧
    RWMutex.writer (mutex after_failed_enqueue) = false ∧
    run (request 0) after_failed_enqueue =
      Some (finish 0
              (Responded {| header := no_store;
                            body := frame_of (data at_enqueue,
                                              jpegLen at_enqueue) |})
              after_failed_enqueue).
Proof.
  apply (enqueue_failure_serves_last_frame blank at_enqueue
           after_failed_enqueue after_failed_enqueue
           (V4L2.with_bytesused V4L2.capture_buffer 3) 5 [] 0).
  - exists before_enqueue. vm_compute. reflexivity.
  - reflexivity.
  - lia.
  - vm_compute. reflexivity.
  - reflexivity.
  - reflexivity.
  - vm_compute. reflexivity.
  - vm_compute. discriminate.
Defined.
